(** * Verification of the point-section animation and the background preload
    of [src/js/script.js].

    JavaScript numbers are modelled as reals extended with the two
    infinities and NaN ([JsNum.num]); rounding and signed zeros are not
    modelled.  Each operation follows the ECMAScript rule for the
    non-finite operands it can meet. *)

From Stdlib Require Import Reals Lra Lia ZArith List String Bool.
From Stdlib Require Import Sorting.Sorted.
Import ListNotations.
Local Open Scope R_scope.

Module JsNum.

Inductive num : Type :=
| Fin (r : R)
| PInf
| NInf
| NaN.

Definition inf_of (pos : bool) : num := if pos then PInf else NInf.

(** Sign of a non-zero, non-NaN number ([None] for zero and NaN). *)
Definition sgn (x : num) : option bool :=
  match x with
  | Fin r => if Rlt_dec 0 r then Some true
             else if Rlt_dec r 0 then Some false else None
  | PInf => Some true
  | NInf => Some false
  | NaN => None
  end.

Definition neg (x : num) : num :=
  match x with
  | Fin r => Fin (- r)
  | PInf => NInf
  | NInf => PInf
  | NaN => NaN
  end.

Definition add (x y : num) : num :=
  match x, y with
  | NaN, _ | _, NaN => NaN
  | Fin a, Fin b => Fin (a + b)
  | PInf, NInf | NInf, PInf => NaN
  | PInf, _ | _, PInf => PInf
  | NInf, _ | _, NInf => NInf
  end.

(** [x - y] is [x + (-y)]. *)
Definition sub (x y : num) : num := add x (neg y).

Definition mul (x y : num) : num :=
  match x, y with
  | NaN, _ | _, NaN => NaN
  | Fin a, Fin b => Fin (a * b)
  | _, _ =>
      match sgn x, sgn y with
      | Some s, Some t => inf_of (Bool.eqb s t)
      | _, _ => NaN                      (* 0 * Infinity *)
      end
  end.

Definition div (x y : num) : num :=
  match x, y with
  | NaN, _ | _, NaN => NaN
  | Fin a, Fin b =>
      if Req_dec_T b 0 then
        match sgn x with
        | Some s => inf_of s               (* a / 0, a <> 0 *)
        | None => NaN                      (* 0 / 0 *)
        end
      else Fin (a / b)
  | Fin _, _ => Fin 0
  | _, Fin b =>
      match sgn x, sgn y with
      | Some s, Some t => inf_of (Bool.eqb s t)
      | Some s, None => inf_of s
      | _, _ => NaN
      end
  | _, _ => NaN                          (* Infinity / Infinity *)
  end.

(** Truncation towards zero. *)
Definition trunc (r : R) : Z :=
  if Rle_dec 0 r then Int_part r else (- Int_part (- r))%Z.

(** The [%] operator: [n - d * q] with [q] the quotient truncated towards
    zero. *)
Definition rem (x y : num) : num :=
  match x, y with
  | Fin a, Fin b =>
      if Req_dec_T b 0 then NaN else Fin (a - b * IZR (trunc (a / b)))
  | Fin a, PInf | Fin a, NInf => Fin a
  | _, _ => NaN
  end.

Definition sin (x : num) : num :=
  match x with Fin r => Fin (Rtrigo_def.sin r) | _ => NaN end.

Definition cos (x : num) : num :=
  match x with Fin r => Fin (Rtrigo_def.cos r) | _ => NaN end.

Definition lt (x y : num) : bool :=
  match x, y with
  | NaN, _ | _, NaN => false
  | PInf, _ => false
  | _, NInf => false
  | NInf, _ => true
  | _, PInf => true
  | Fin a, Fin b => if Rlt_dec a b then true else false
  end.

Definition gt (x y : num) : bool := lt y x.

Definition of_nat (n : nat) : num := Fin (INR n).

(** [Math.PI]. *)
Definition MathPI : num := Fin PI.

End JsNum.

Import JsNum.

(** ** Radius mapper: [getPointRadius] (script.js, lines 536-542).
    [screenWidth] is [window.innerWidth], an integer number of pixels. *)
Definition getPointRadius (screenWidth : Z) : Z :=
  if (screenWidth <=? 480)%Z then 70%Z
  else if (screenWidth <=? 768)%Z then 75%Z
  else if (screenWidth <=? 1200)%Z then 100%Z
  else 120%Z.

(** ** Pose projector: [initPointAnimation] (script.js, lines 525-606). *)

Record pose : Type := mkPose { py : num; pz : num; protateX : num }.

(** Side effects on the page: console messages, [gsap.set] of a text's
    transform, the [focus] class toggle and [ScrollTrigger.create]. *)
Inductive effect : Type :=
| ConsoleError (msg : string)
| SetPose (index : nat) (p : pose)
| AddFocus (index : nat)
| RemoveFocus (index : nat)
| CreateScrollTrigger.

(** Body of the [forEach] in [initializePointTexts]. *)
Definition init_pose (totalTexts : nat) (currentRadius : num) (index : nat)
  : pose :=
  let angle := mul (div (of_nat index) (sub (of_nat totalTexts) (Fin 1)))
                   MathPI in
  let y := mul (sin angle) currentRadius in
  let z := mul (cos angle) currentRadius in
  mkPose y z (neg (div (mul angle (Fin 180)) MathPI)).

Definition initializePointTexts (totalTexts : nat) (currentRadius : num)
  : list effect :=
  map (fun index => SetPose index (init_pose totalTexts currentRadius index))
      (seq 0 totalTexts).

(** Locals computed for one text in the [onUpdate] callback. *)
Record text_update : Type := mkTextUpdate {
  baseAngle : num;
  currentAngle : num;
  u_pose : pose;
  normalizedAngle : num;
  isFocus : bool }.

Definition update_text (totalTexts : nat) (radius rotationProgress : num)
  (index : nat) : text_update :=
  let baseAngle := mul (div (of_nat index) (sub (of_nat totalTexts) (Fin 1)))
                       MathPI in
  let currentAngle :=
    sub baseAngle (div (mul rotationProgress MathPI)
                       (sub (of_nat totalTexts) (Fin 1))) in
  let y := mul (sin currentAngle) radius in
  let z := mul (cos currentAngle) radius in
  let rotateX := neg (div (mul currentAngle (Fin 180)) MathPI) in
  let twoPI := mul MathPI (Fin 2) in
  let normalizedAngle := rem (add (rem currentAngle twoPI) twoPI) twoPI in
  let isFocus := lt normalizedAngle (Fin (3 / 10))
                 || gt normalizedAngle (sub twoPI (Fin (3 / 10))) in
  mkTextUpdate baseAngle currentAngle (mkPose y z rotateX)
               normalizedAngle isFocus.

(** The [onUpdate] callback for a tick with [self.progress = progress]. *)
Definition onUpdate (totalTexts : nat) (radius progress : num)
  : list effect :=
  let rotationProgress := mul progress (sub (of_nat totalTexts) (Fin 1)) in
  flat_map (fun index =>
              let u := update_text totalTexts radius rotationProgress index in
              [SetPose index (u_pose u);
               if isFocus u then AddFocus index else RemoveFocus index])
           (seq 0 totalTexts).

(** Page globals read by [initPointAnimation]: whether [gsap] and
    [ScrollTrigger] are defined, how many elements match
    ['.point .ani_text p'], and [window.innerWidth]. *)
Record env : Type := mkEnv {
  gsap_defined : bool;
  scrolltrigger_defined : bool;
  point_text_count : nat;
  innerWidth : Z }.

(** What the installed [ScrollTrigger]'s [onUpdate] closure captured. *)
Record trigger : Type := mkTrigger { t_totalTexts : nat; t_radius : num }.

Definition initPointAnimation (e : env) : list effect * option trigger :=
  if negb (gsap_defined e && scrolltrigger_defined e) then
    ([ConsoleError "GSAP or ScrollTrigger not loaded"], None)
  else
    (* gsap.utils.toArray(...).slice(0, 4) *)
    let totalTexts := Nat.min (point_text_count e) 4 in
    if Nat.eqb totalTexts 0 then ([], None)
    else
      let radius := Fin (IZR (getPointRadius (innerWidth e))) in
      let currentRadius := Fin (IZR (getPointRadius (innerWidth e))) in
      (initializePointTexts totalTexts currentRadius ++ [CreateScrollTrigger],
       Some (mkTrigger totalTexts radius)).

(** Page after setup: the viewport width, the installed trigger, and the
    effects written so far. *)
Record page : Type := mkPage {
  p_width : Z;
  p_trigger : option trigger;
  p_log : list effect }.

Inductive event : Type :=
| Resize (w : Z)            (* window resize to width [w] *)
| Tick (progress : R).      (* ScrollTrigger calls onUpdate *)

Definition setup (e : env) : page :=
  let (eff, t) := initPointAnimation e in mkPage (innerWidth e) t eff.

(** [handleResize] (lines 236-246) only calls [AOS.refresh] and
    [ScrollTrigger.refresh]; neither touches the closure's [radius].
    A tick runs the installed [onUpdate]. *)
Definition step (pg : page) (ev : event) : page :=
  match ev with
  | Resize w => mkPage w (p_trigger pg) (p_log pg)
  | Tick progress =>
      match p_trigger pg with
      | Some t =>
          mkPage (p_width pg) (p_trigger pg)
                 (p_log pg ++ onUpdate (t_totalTexts t) (t_radius t)
                                       (Fin progress))
      | None => pg
      end
  end.

Definition run (pg : page) (evs : list event) : page := fold_left step evs pg.

(** ** Background preload: [aggressivePreloadImages] (lines 110-154). *)

Definition webpPath : string := "./images/point_bg.webp".
Definition jpgPath : string := "./images/point_bg.jpg".

(** [s.includes(sub)]. *)
Definition includes (s sub : string) : bool :=
  match String.index 0 sub s with Some _ => true | None => false end.

Inductive action : Type :=
| ProbeWebP                    (* supportsWebP(): decode of a data URI *)
| Log
| PreloadHint (path : string)  (* <link rel=preload> appended to head *)
| LoadImage (path : string)    (* new Image(); img.src = path *)
| ApplyBackground (path : string).

(** State of the promise returned to the caller once every callback ran. *)
Inductive settlement : Type :=
| ResolvedUndefined
| Resolved (v : bool)
| Rejected (v : bool)
| Pending.

Definition applyBackgroundImage (imagePath : string) : list action :=
  [ApplyBackground imagePath].

(** [loadFallbackImage]: only an [onload] handler is installed. *)
Definition loadFallbackImage (fallbackPath : string)
  (load_ok : string -> bool) : list action :=
  LoadImage fallbackPath ::
  (if load_ok fallbackPath then applyBackgroundImage fallbackPath else []).

(** [protocol] is [window.location.protocol], [isWebPSupported] the result
    of the probe, [load_ok p] whether loading the image at [p] succeeds. *)
Definition aggressivePreloadImages (protocol : string) (isWebPSupported : bool)
  (load_ok : string -> bool) : list action * settlement :=
  if String.eqb protocol "file:" then ([Log], ResolvedUndefined)
  else
    let bgImagePath := if isWebPSupported then webpPath else jpgPath in
    let started := [ProbeWebP; PreloadHint bgImagePath; LoadImage bgImagePath] in
    if load_ok bgImagePath then
      (started ++ Log :: applyBackgroundImage bgImagePath, Resolved true)
    else if isWebPSupported && includes bgImagePath ".webp" then
      (started ++ Log :: loadFallbackImage jpgPath load_ok, Pending)
    else (started ++ [Log], Rejected false).

(** Network fetches issued by a run of the negotiator. *)
Definition is_fetch (a : action) : bool :=
  match a with PreloadHint _ | LoadImage _ => true | _ => false end.

Definition fetched_path (a : action) : option string :=
  match a with PreloadHint p | LoadImage p => Some p | _ => None end.

Example includes_webp : includes webpPath ".webp" = true.
Proof. reflexivity. Qed.

Example includes_jpg : includes jpgPath ".webp" = false.
Proof. reflexivity. Qed.

Example radius_480 : getPointRadius 480 = 70%Z.
Proof. reflexivity. Qed.

(** ** Throttle: [throttle] (script.js, lines 54-63).
    [calls] are the [Date.now()] values of successive invocations of the
    throttled function; the result lists the ones that ran [func]. *)
Fixpoint throttle_run (delay lastCall : Z) (calls : list Z) : list Z :=
  match calls with
  | [] => []
  | now :: rest =>
      if (delay <=? now - lastCall)%Z then now :: throttle_run delay now rest
      else throttle_run delay lastCall rest
  end.

(** [let lastCall = 0]. *)
Definition throttle (delay : Z) (calls : list Z) : list Z :=
  throttle_run delay 0 calls.

(** [isMobile] (line 34). *)
Definition isMobile (innerWidth : Z) : bool := (innerWidth <=? 768)%Z.

(** ** Consultation modal: [openConsultationModal],
    [closeConsultationModal] and [initModal] (lines 390-496), on a page
    that has the modal, its form fields and the three consent checkboxes
    inside it.  Field values are JavaScript strings, lists of UTF-16 code
    units. *)

Definition jsstring := list Z.

(** ECMAScript WhiteSpace and LineTerminator code units, removed by
    [String.prototype.trim]. *)
Definition is_js_space (c : Z) : bool :=
  existsb (Z.eqb c) [9; 10; 11; 12; 13; 32; 160; 5760; 8232; 8233; 8239;
                     8287; 12288; 65279]%Z
  || ((8192 <=? c) && (c <=? 8202))%Z.

Fixpoint trim_start (s : jsstring) : jsstring :=
  match s with
  | c :: rest => if is_js_space c then trim_start rest else s
  | [] => []
  end.

Definition trim (s : jsstring) : jsstring :=
  rev (trim_start (rev (trim_start s))).

(** [!s]: only the empty string is falsy. *)
Definition js_falsy (s : jsstring) : bool :=
  match s with [] => true | _ => false end.

Record form : Type := mkForm {
  consultType : jsstring;
  inputName : jsstring;
  inputPhone : jsstring;
  agreeAll : bool;
  agreeTwo : bool;
  agreeThird : bool }.

Record mpage : Type := mkMPage {
  modal_active : bool;      (* class 'active' on #consultationModal *)
  body_overflow : string;   (* document.body.style.overflow *)
  m_form : form }.

Inductive meffect : Type :=
| Alert (msg : string)
| LogConsult (consultType name phone : jsstring).

Definition openConsultationModal (p : mpage) : mpage :=
  mkMPage true "hidden" (m_form p).

(** [form.reset()] is followed by clearing the select, the two inputs and
    every checkbox of the modal, so the result does not depend on the
    form's default values. *)
Definition closeConsultationModal (p : mpage) : mpage :=
  mkMPage false "" (mkForm [] [] [] false false false).

(** The click handler of [#submitBtn]. *)
Definition submitClick (p : mpage) : mpage * list meffect :=
  let f := m_form p in
  if js_falsy (consultType f) then (p, [Alert "상담신청 항목을 선택해주세요."])
  else if js_falsy (trim (inputName f)) then (p, [Alert "이름을 입력해주세요."])
  else if js_falsy (trim (inputPhone f)) then
    (p, [Alert "휴대폰 번호를 입력해주세요."])
  else if negb (agreeTwo f) || negb (agreeThird f) then
    (p, [Alert "필수 약관에 동의해주세요."])
  else
    (closeConsultationModal p,
     [LogConsult (consultType f) (inputName f) (inputPhone f);
      Alert "상담 신청이 완료되었습니다."]).

(** User events on the modal page.  A click on a checkbox flips it and then
    fires its [change] handler. *)
Inductive mevent : Type :=
| OpenModal                    (* onclick="openConsultationModal()" *)
| CloseClick                   (* #closeBtn or .modal_bg *)
| EscapeKey
| SubmitClick
| ToggleAll | ToggleTwo | ToggleThird
| SetConsultType (v : jsstring)
| SetName (v : jsstring)
| SetPhone (v : jsstring).

Definition set_form (p : mpage) (f : form) : mpage :=
  mkMPage (modal_active p) (body_overflow p) f.

Definition modal_step (p : mpage) (ev : mevent) : mpage * list meffect :=
  let f := m_form p in
  match ev with
  | OpenModal => (openConsultationModal p, [])
  | CloseClick => (closeConsultationModal p, [])
  | EscapeKey =>
      if modal_active p then (closeConsultationModal p, []) else (p, [])
  | SubmitClick => submitClick p
  | ToggleAll =>
      let isChecked := negb (agreeAll f) in
      (set_form p (mkForm (consultType f) (inputName f) (inputPhone f)
                          isChecked isChecked isChecked), [])
  | ToggleTwo =>
      let two := negb (agreeTwo f) in
      (set_form p (mkForm (consultType f) (inputName f) (inputPhone f)
                          (two && agreeThird f) two (agreeThird f)), [])
  | ToggleThird =>
      let third := negb (agreeThird f) in
      (set_form p (mkForm (consultType f) (inputName f) (inputPhone f)
                          (agreeTwo f && third) (agreeTwo f) third), [])
  | SetConsultType v =>
      (set_form p (mkForm v (inputName f) (inputPhone f)
                          (agreeAll f) (agreeTwo f) (agreeThird f)), [])
  | SetName v =>
      (set_form p (mkForm (consultType f) v (inputPhone f)
                          (agreeAll f) (agreeTwo f) (agreeThird f)), [])
  | SetPhone v =>
      (set_form p (mkForm (consultType f) (inputName f) v
                          (agreeAll f) (agreeTwo f) (agreeThird f)), [])
  end.

Fixpoint modal_run (p : mpage) (evs : list mevent) : mpage * list meffect :=
  match evs with
  | [] => (p, [])
  | ev :: rest =>
      let (p1, out1) := modal_step p ev in
      let (p2, out2) := modal_run p1 rest in
      (p2, out1 ++ out2)
  end.

(** ** Hamburger menu: the click handlers of [initHeader] (lines 250-316),
    on a page that has [.ham_btn], [.ham_gnb] and [.ham_icon]. *)







(** ** Background retries: the [load] and [visibilitychange] listeners
    (lines 737-751).  [host] is [.point_box]: [None] when absent, otherwise
    whether it has the class [bg-loaded], which [applyBackgroundImage]
    adds. *)

Definition is_apply (a : action) : bool :=
  match a with ApplyBackground _ => true | _ => false end.

Definition retryPreload (host : option bool) (protocol : string)
  (isWebPSupported : bool) (load_ok : string -> bool)
  : list action * option bool :=
  match host with
  | Some false =>
      let acts := fst (aggressivePreloadImages protocol isWebPSupported load_ok) in
      (acts, Some (existsb is_apply acts))
  | _ => ([], host)
  end.

(** One retry event with its environment: protocol, probe result, load
    outcomes. *)
Definition retry_input : Type := (string * bool * (string -> bool))%type.

Fixpoint retry_run (host : option bool) (rs : list retry_input)
  : list action * option bool :=
  match rs with
  | [] => ([], host)
  | (protocol, w, ok) :: rest =>
      let (a1, h1) := retryPreload host protocol w ok in
      let (a2, h2) := retry_run h1 rest in
      (a1 ++ a2, h2)
  end.

(** ** Start-up: [waitForLibraries], [initializeGSAP] (lines 4-28) and the
    [DOMContentLoaded] handler (lines 156-247).  [avail k] is whether
    [gsap], [AOS] and [ScrollTrigger] are all defined at the [k]-th check
    (made [100 * k] ms after the first); [fuel] bounds the number of checks
    observed. *)

Fixpoint first_check (avail : nat -> bool) (k fuel : nat) : option nat :=
  match fuel with
  | O => None
  | S fuel' => if avail k then Some k else first_check avail (S k) fuel'
  end.

(** The check at which the promise resolves, if within [fuel] checks; it has
    no reject path. *)
Definition waitForLibraries (avail : nat -> bool) (fuel : nat) : option nat :=
  first_check avail 0 fuel.

Inductive init_step : Type :=
| StartPreload | ObservePoint | InitHeaderStep | InitModalStep | InitAOS
| ScheduleAnimations | AddResizeListener.

(** Steps the handler reaches.  [gsap.registerPlugin] is assumed not to
    throw.  A rejected preload is caught and the handler goes on; a pending
    one suspends it for good. *)
Definition domContentLoaded (avail : nat -> bool) (fuel : nat)
  (protocol : string) (isWebPSupported : bool) (load_ok : string -> bool)
  : list init_step :=
  match waitForLibraries avail fuel with
  | None => []
  | Some _ =>
      StartPreload ::
      match snd (aggressivePreloadImages protocol isWebPSupported load_ok) with
      | Pending => []
      | _ => [ObservePoint; InitHeaderStep; InitModalStep; InitAOS;
              ScheduleAnimations; AddResizeListener]
      end
  end.

(** ** Autoplay fallback: [attemptVideoAutoplay] (lines 860-905).
    When [heroVideo.play()] is refused, [playVideo] creates a fresh
    [userInteractionHandler] closure and registers it on the document for
    [touchstart], [click] and [scroll] with [{ once: true }]; the handler
    retries [play()] and removes itself from all three events.  [playVideo]
    may run twice (on [loadedmetadata] and on [canplay]), each time with a
    fresh closure.  A document listener is an (event type, closure id) pair;
    only these listeners are modelled.  [addEventListener] ignores a pair
    that is already registered, and a dispatch visits the listeners
    registered for the event when it starts, skipping those removed in the
    meantime; a [once] listener is removed before it runs. *)

Definition listener : Type := (string * nat)%type.

Definition listener_eqb (l1 l2 : listener) : bool :=
  String.eqb (fst l1) (fst l2) && Nat.eqb (snd l1) (snd l2).

Definition addEventListener (ls : list listener) (l : listener) : list listener :=
  if existsb (listener_eqb l) ls then ls else ls ++ [l].

Definition removeEventListener (ls : list listener) (l : listener) : list listener :=
  filter (fun l' => negb (listener_eqb l' l)) ls.

Definition interaction_events : list string := ["touchstart"; "click"; "scroll"]%string.

(** The three [addEventListener] calls of the [catch] branch, for the
    closure [h]. *)
Definition add_interaction_listeners (ls : list listener) (h : nat) : list listener :=
  fold_left (fun ls e => addEventListener ls (e, h)) interaction_events ls.

(** The three [removeEventListener] calls of [userInteractionHandler]. *)
Definition userInteractionHandler (h : nat) (ls : list listener) : list listener :=
  fold_left (fun ls e => removeEventListener ls (e, h)) interaction_events ls.

(** Every failed [playVideo] run, with the ids of its closures. *)
Definition failed_autoplays (hs : list nat) (ls : list listener) : list listener :=
  fold_left add_interaction_listeners hs ls.

(** Dispatch of a document event: returns the listeners left and the
    closures that ran, i.e. the [heroVideo.play()] retries. *)
Fixpoint dispatch_run (ev : string) (pending : list nat) (ls : list listener)
  : list listener * list nat :=
  match pending with
  | [] => (ls, [])
  | h :: rest =>
      if existsb (listener_eqb (ev, h)) ls then
        let '(ls', played) :=
          dispatch_run ev rest (userInteractionHandler h (removeEventListener ls (ev, h))) in
        (ls', h :: played)
      else dispatch_run ev rest ls
  end.

Definition dispatch (ev : string) (ls : list listener) : list listener * list nat :=
  dispatch_run ev (map snd (filter (fun l => String.eqb (fst l) ev) ls)) ls.

(** * Radius mapper *)

Lemma getPointRadius_cases (w : Z) :
  ((w <= 480)%Z /\ getPointRadius w = 70%Z) \/
  ((480 < w <= 768)%Z /\ getPointRadius w = 75%Z) \/
  ((768 < w <= 1200)%Z /\ getPointRadius w = 100%Z) \/
  ((1200 < w)%Z /\ getPointRadius w = 120%Z).
Proof.
  unfold getPointRadius.
  destruct (Z.leb_spec w 480); [left; auto|].
  destruct (Z.leb_spec w 768); [right; left; split; [lia|auto]|].
  destruct (Z.leb_spec w 1200); [right; right; left; split; [lia|auto]|].
  right; right; right; split; [lia|auto].
Qed.

(** C5: [getPointRadius] is the step function with inclusive ascending
    thresholds 480, 768, 1200 (first match wins) returning 70, 75, 100 and
    otherwise 120; at the breakpoints it gives 70, 75, 75, 100, 100, 120 for
    480, 481, 768, 769, 1200, 1201. *)
Theorem getPointRadius_thresholds :
  (forall w, (w <= 480)%Z -> getPointRadius w = 70%Z) /\
  (forall w, (480 < w <= 768)%Z -> getPointRadius w = 75%Z) /\
  (forall w, (768 < w <= 1200)%Z -> getPointRadius w = 100%Z) /\
  (forall w, (1200 < w)%Z -> getPointRadius w = 120%Z) /\
  getPointRadius 480 = 70%Z /\ getPointRadius 481 = 75%Z /\
  getPointRadius 768 = 75%Z /\ getPointRadius 769 = 100%Z /\
  getPointRadius 1200 = 100%Z /\ getPointRadius 1201 = 120%Z.
Proof.
  repeat split; try reflexivity; intros w Hw;
    destruct (getPointRadius_cases w) as [[? ?]|[[? ?]|[[? ?]|[? ?]]]];
    auto; lia.
Qed.

(** C10: [getPointRadius] is monotone non-decreasing in the width and its
    range is exactly {70, 75, 100, 120}. *)
Theorem getPointRadius_monotone_range :
  (forall w1 w2, (w1 <= w2)%Z -> (getPointRadius w1 <= getPointRadius w2)%Z) /\
  (forall w, In (getPointRadius w) [70%Z; 75%Z; 100%Z; 120%Z]) /\
  (forall r, In r [70%Z; 75%Z; 100%Z; 120%Z] -> exists w, getPointRadius w = r).
Proof.
  split; [|split].
  - intros w1 w2 Hle.
    destruct (getPointRadius_cases w1) as [[? E1]|[[? E1]|[[? E1]|[? E1]]]];
    destruct (getPointRadius_cases w2) as [[? E2]|[[? E2]|[[? E2]|[? E2]]]];
    rewrite E1, E2; lia.
  - intros w.
    destruct (getPointRadius_cases w) as [[? E]|[[? E]|[[? E]|[? E]]]];
      rewrite E; simpl; tauto.
  - intros r [<-|[<-|[<-|[<-|[]]]]].
    + exists 0%Z; reflexivity.
    + exists 500%Z; reflexivity.
    + exists 1000%Z; reflexivity.
    + exists 2000%Z; reflexivity.
Qed.

(** * Background preload negotiator *)

(** C6: when the probe reports WebP unsupported, no fetch of the WebP path
    is ever issued; when it reports WebP supported and the WebP load fails,
    the fetches are the preload hint and load of the WebP path followed by
    exactly one load of the JPG fallback, and nothing after it. *)
Theorem preload_fallback_attempts :
  (forall protocol load_ok a,
      In a (fst (aggressivePreloadImages protocol false load_ok)) ->
      fetched_path a <> Some webpPath) /\
  (forall protocol load_ok,
      protocol <> "file:"%string -> load_ok webpPath = false ->
      filter is_fetch (fst (aggressivePreloadImages protocol true load_ok)) =
      [PreloadHint webpPath; LoadImage webpPath; LoadImage jpgPath]).
Proof.
  split.
  - intros protocol load_ok a Hin.
    unfold aggressivePreloadImages in Hin.
    destruct (String.eqb protocol "file:").
    + destruct Hin as [<-|[]]; discriminate.
    + simpl in Hin. destruct (load_ok jpgPath); simpl in Hin;
        repeat (destruct Hin as [<-|Hin]; [discriminate|]); destruct Hin.
  - intros protocol load_ok Hp Hfail.
    unfold aggressivePreloadImages.
    destruct (String.eqb_spec protocol "file:"); [contradiction|].
    rewrite Hfail. simpl.
    destruct (load_ok jpgPath); reflexivity.
Qed.

(** C7: when WebP is supported and both the WebP load and the JPG fallback
    fail, the returned promise is never settled ([loadFallbackImage] has no
    [onerror] and the [onerror] of the first image calls neither [resolve]
    nor [reject]); only the directly chosen JPG path rejects on failure. *)
Theorem preload_fallback_failure_pending :
  snd (aggressivePreloadImages "https:" true (fun _ => false)) = Pending /\
  snd (aggressivePreloadImages "https:" false (fun _ => false)) = Rejected false.
Proof. split; reflexivity. Qed.

(** * Setup of the pose projector *)

(** C8: if [gsap] or [ScrollTrigger] is undefined, [initPointAnimation]
    returns normally after one console error, creates no scroll trigger and
    writes no pose, and no later resize or tick writes anything either. *)
Theorem initPointAnimation_missing_library (e : env) :
  (gsap_defined e = false \/ scrolltrigger_defined e = false) ->
  initPointAnimation e =
    ([ConsoleError "GSAP or ScrollTrigger not loaded"], None) /\
  forall evs,
    p_log (run (setup e) evs) = [ConsoleError "GSAP or ScrollTrigger not loaded"].
Proof.
  intros Hmiss.
  assert (Hinit : initPointAnimation e =
            ([ConsoleError "GSAP or ScrollTrigger not loaded"], None)).
  { unfold initPointAnimation.
    destruct Hmiss as [-> | ->]; [reflexivity|].
    rewrite andb_false_r; reflexivity. }
  split; [exact Hinit|].
  intros evs. unfold setup. rewrite Hinit. unfold run.
  generalize (innerWidth e).
  induction evs as [|ev evs IH]; intros w; [reflexivity|].
  destruct ev; simpl; apply IH.
Qed.

Lemma initPointAnimation_missing_library_witness :
  (gsap_defined (mkEnv false true 4 1000) = false \/
   scrolltrigger_defined (mkEnv false true 4 1000) = false) /\
  initPointAnimation (mkEnv false true 4 1000) =
    ([ConsoleError "GSAP or ScrollTrigger not loaded"], None).
Proof.
  split; [left; reflexivity|].
  apply (initPointAnimation_missing_library (mkEnv false true 4 1000)).
  left; reflexivity.
Defined.

(** * Arithmetic on finite JavaScript numbers *)

Module JsNumFacts.

Lemma sub_fin (a b : R) : sub (Fin a) (Fin b) = Fin (a - b).
Proof. reflexivity. Qed.

Lemma add_fin (a b : R) : add (Fin a) (Fin b) = Fin (a + b).
Proof. reflexivity. Qed.

Lemma mul_fin (a b : R) : mul (Fin a) (Fin b) = Fin (a * b).
Proof. reflexivity. Qed.

Lemma div_fin (a b : R) : b <> 0 -> div (Fin a) (Fin b) = Fin (a / b).
Proof. intros Hb. simpl. destruct (Req_dec_T b 0); [contradiction|reflexivity]. Qed.

Lemma rem_fin (a b : R) :
  b <> 0 -> rem (Fin a) (Fin b) = Fin (a - b * IZR (trunc (a / b))).
Proof. intros Hb. simpl. destruct (Req_dec_T b 0); [contradiction|reflexivity]. Qed.

Lemma lt_fin (a b : R) : lt (Fin a) (Fin b) = true <-> a < b.
Proof.
  simpl. destruct (Rlt_dec a b); split; auto; discriminate.
Qed.

Lemma of_nat_minus_1 (N : nat) : sub (of_nat N) (Fin 1) = Fin (INR N - 1).
Proof. reflexivity. Qed.

Lemma INR_minus_1_pos (N : nat) : (2 <= N)%nat -> 1 <= INR N - 1.
Proof.
  intros HN. apply le_INR in HN. simpl in HN. lra.
Qed.

End JsNumFacts.

Import JsNumFacts.

(** Angles of a text in the update for [N >= 2] elements. *)
Lemma update_text_angles (N index : nat) (radius : num) (p : R) :
  (2 <= N)%nat ->
  let u := update_text N radius (mul (Fin p) (sub (of_nat N) (Fin 1))) index in
  baseAngle u = Fin (INR index / (INR N - 1) * PI) /\
  currentAngle u = Fin (INR index / (INR N - 1) * PI - p * PI).
Proof.
  intros HN u.
  pose proof (INR_minus_1_pos N HN) as H1.
  assert (Hnz : INR N - 1 <> 0) by lra.
  unfold u, update_text. cbv zeta. cbn [baseAngle currentAngle].
  rewrite of_nat_minus_1, mul_fin. unfold of_nat, MathPI.
  rewrite div_fin by exact Hnz. rewrite mul_fin, mul_fin.
  rewrite div_fin by exact Hnz. rewrite sub_fin.
  split; [reflexivity|].
  f_equal. field. exact Hnz.
Qed.

Lemma onUpdate_sets_pose (N index : nat) (radius progress : num) :
  (index < N)%nat ->
  In (SetPose index
        (u_pose (update_text N radius
                   (mul progress (sub (of_nat N) (Fin 1))) index)))
     (onUpdate N radius progress).
Proof.
  intros Hi. unfold onUpdate. apply in_flat_map.
  exists index. split.
  - apply in_seq. lia.
  - left. reflexivity.
Qed.

(** C3: for [N >= 2] texts, a text [index < N] and a progress in [0, 1]:
    [rotationProgress = progress * (N - 1)], the base angle is
    [(index / (N - 1)) * PI] and the current angle is
    [baseAngle - progress * PI] (so progress 0 to 1 sweeps each text back by
    PI, the whole span of the base angles); the pose computed for the text
    is the one [onUpdate] writes, and at progress 0 it is exactly the pose
    [initializePointTexts] writes for the same radius. *)
Theorem update_angle_sweep (N index : nat) (radius : num) (p : R) :
  (2 <= N)%nat -> (index < N)%nat -> 0 <= p <= 1 ->
  let u := update_text N radius (mul (Fin p) (sub (of_nat N) (Fin 1))) index in
  mul (Fin p) (sub (of_nat N) (Fin 1)) = Fin (p * (INR N - 1)) /\
  baseAngle u = Fin (INR index / (INR N - 1) * PI) /\
  currentAngle u = Fin (INR index / (INR N - 1) * PI - p * PI) /\
  In (SetPose index (u_pose u)) (onUpdate N radius (Fin p)) /\
  u_pose (update_text N radius (mul (Fin 0) (sub (of_nat N) (Fin 1))) index)
    = init_pose N radius index.
Proof.
  intros HN Hi Hp u.
  destruct (update_text_angles N index radius p HN) as [Hb Hc].
  destruct (update_text_angles N index radius 0 HN) as [Hb0 Hc0].
  split; [reflexivity|]. split; [exact Hb|]. split; [exact Hc|].
  split; [apply onUpdate_sets_pose; exact Hi|].
  pose proof (INR_minus_1_pos N HN) as H1.
  assert (Hnz : INR N - 1 <> 0) by lra.
  unfold update_text in Hc0 |- *. simpl currentAngle in Hc0.
  simpl u_pose. rewrite Hc0.
  unfold init_pose. rewrite of_nat_minus_1. unfold of_nat.
  rewrite div_fin by exact Hnz. unfold MathPI. rewrite mul_fin.
  replace (INR index / (INR N - 1) * PI - 0 * PI)
    with (INR index / (INR N - 1) * PI) by ring.
  reflexivity.
Qed.

Lemma update_angle_sweep_witness :
  ((2 <= 4)%nat /\ (3 < 4)%nat /\ 0 <= 1/2 <= 1) /\
  currentAngle (update_text 4 (Fin 100) (mul (Fin (1/2)) (sub (of_nat 4) (Fin 1))) 3)
    = Fin (INR 3 / (INR 4 - 1) * PI - 1/2 * PI).
Proof.
  split; [split; [lia|split; [lia|lra]]|].
  apply (update_angle_sweep 4 3 (Fin 100) (1/2)); [lia|lia|lra].
Defined.

(** * Angle normalisation *)

Definition twoPI : num := mul MathPI (Fin 2).

Lemma twoPI_fin : twoPI = Fin (PI * 2).
Proof. reflexivity. Qed.

Lemma PI_bounds : 3 < PI <= 4.
Proof. pose proof PI2_3_2. pose proof PI_4. lra. Qed.

(** [a % b] for [b > 0] is [a - b * k] for an integer [k], strictly
    between [-b] and [b], and non-negative when [a] is. *)
Lemma rem_pos_spec (a b : R) :
  0 < b ->
  exists k : Z, rem (Fin a) (Fin b) = Fin (a - b * IZR k) /\
    - b < a - b * IZR k < b /\ (0 <= a -> 0 <= a - b * IZR k).
Proof.
  intros Hb.
  rewrite rem_fin by lra.
  exists (trunc (a / b)). split; [reflexivity|].
  assert (Ha : a = b * (a / b)) by (field; lra).
  set (q := a / b) in *.
  unfold trunc. destruct (Rle_dec 0 q) as [Hq|Hq].
  - destruct (base_Int_part q) as [Hlo Hhi].
    set (n := IZR (Int_part q)) in *.
    assert (b * n <= b * q) by nra.
    assert (b * q < b * n + b) by nra.
    split; [split; nra|]. intros _. nra.
  - destruct (base_Int_part (- q)) as [Hlo Hhi].
    rewrite opp_IZR.
    set (n := IZR (Int_part (- q))) in *.
    assert (b * n <= - (b * q)) by nra.
    assert (- (b * q) < b * n + b) by nra.
    split; [split; nra|]. intros Hpos. exfalso. apply Hq. nra.
Qed.

(** [((a % 2PI) + 2PI) % 2PI] is [a] shifted by a whole number of turns
    into [[0, 2PI)]. *)
Lemma normalize_spec (a : R) :
  exists k : Z,
    rem (add (rem (Fin a) twoPI) twoPI) twoPI = Fin (a - PI * 2 * IZR k) /\
    0 <= a - PI * 2 * IZR k < PI * 2.
Proof.
  pose proof PI_bounds as HPI.
  assert (HT : 0 < PI * 2) by lra.
  rewrite twoPI_fin.
  destruct (rem_pos_spec a (PI * 2) HT) as [k1 [E1 [B1 _]]].
  rewrite E1, add_fin.
  destruct (rem_pos_spec (a - PI * 2 * IZR k1 + PI * 2) (PI * 2) HT)
    as [k2 [E2 [B2 P2]]].
  rewrite E2.
  exists (k1 + k2 - 1)%Z.
  rewrite minus_IZR, plus_IZR.
  split.
  - f_equal. ring.
  - split.
    + replace (a - PI * 2 * (IZR k1 + IZR k2 - 1))
        with (a - PI * 2 * IZR k1 + PI * 2 - PI * 2 * IZR k2) by ring.
      apply P2. lra.
    + replace (a - PI * 2 * (IZR k1 + IZR k2 - 1))
        with (a - PI * 2 * IZR k1 + PI * 2 - PI * 2 * IZR k2) by ring.
      lra.
Qed.

(** Normalised angle and focus flag of a text whose current angle is
    finite. *)
Lemma update_text_focus (N index : nat) (radius rp : num) (a : R) :
  currentAngle (update_text N radius rp index) = Fin a ->
  exists k : Z,
    normalizedAngle (update_text N radius rp index) = Fin (a - PI * 2 * IZR k) /\
    0 <= a - PI * 2 * IZR k < PI * 2 /\
    (isFocus (update_text N radius rp index) = true <->
       a - PI * 2 * IZR k < 3 / 10 \/ a - PI * 2 * IZR k > PI * 2 - 3 / 10).
Proof.
  intros Hc.
  destruct (normalize_spec a) as [k [En Bn]].
  exists k.
  unfold update_text in Hc |- *. cbv zeta in Hc |- *.
  cbn [normalizedAngle isFocus currentAngle] in Hc |- *.
  rewrite Hc. fold twoPI. rewrite En.
  split; [reflexivity|]. split; [exact Bn|].
  rewrite twoPI_fin, sub_fin. unfold gt.
  rewrite orb_true_iff, !lt_fin. lra.
Qed.

(** * A single text: [N = 1] *)

(** With one text, [index / (totalTexts - 1)] is [0 / 0]. *)
Lemma base_ratio_single : div (of_nat 0) (sub (of_nat 1) (Fin 1)) = NaN.
Proof.
  rewrite of_nat_minus_1. unfold of_nat. simpl INR.
  simpl div.
  destruct (Req_dec_T (1 - 1) 0) as [_|H]; [|exfalso; apply H; ring].
  simpl sgn.
  destruct (Rlt_dec 0 0); [lra|].
  destruct (Rlt_dec 0 0); [lra|].
  reflexivity.
Qed.

Lemma update_text_single (radius rp : num) :
  update_text 1 radius rp 0 = mkTextUpdate NaN NaN (mkPose NaN NaN NaN) NaN false.
Proof.
  unfold update_text. cbv zeta. rewrite base_ratio_single. reflexivity.
Qed.

(** C2 (code defect): with exactly one text, [initPointAnimation] and the
    tick return normally, but the pose written at setup and on every tick
    is NaN in each component (from [0 / 0]), not the angle-0 pose
    [(0, radius, 0)], and the text never gets the focus class. *)
Theorem single_text_pose_NaN (w : Z) (p : R) :
  initPointAnimation (mkEnv true true 1 w) =
    ([SetPose 0 (mkPose NaN NaN NaN); CreateScrollTrigger],
     Some (mkTrigger 1 (Fin (IZR (getPointRadius w))))) /\
  onUpdate 1 (Fin (IZR (getPointRadius w))) (Fin p) =
    [SetPose 0 (mkPose NaN NaN NaN); RemoveFocus 0] /\
  mkPose NaN NaN NaN <> mkPose (Fin 0) (Fin (IZR (getPointRadius w))) (Fin 0).
Proof.
  split; [|split].
  - unfold initPointAnimation. simpl.
    unfold initializePointTexts, init_pose. simpl map.
    rewrite base_ratio_single. reflexivity.
  - unfold onUpdate. cbv zeta. cbn [seq flat_map app].
    rewrite update_text_single. reflexivity.
  - discriminate.
Qed.

(** C4 (code defect, same [0 / 0] as C2): with one text the normalised
    angle of every tick is NaN, outside [[0, 2PI)], and the focus test is
    false. *)
Theorem single_text_normalized_NaN (radius : num) (p : R) :
  let u := update_text 1 radius (mul (Fin p) (sub (of_nat 1) (Fin 1))) 0 in
  normalizedAngle u = NaN /\ isFocus u = false.
Proof.
  intros u. unfold u. rewrite update_text_single. split; reflexivity.
Qed.

(** * Focus window for [N >= 2] texts *)

(** For [N >= 2] the normalised angle lies in [[0, 2PI)] and the focus flag
    is the window test on it; for [N = 4] at progress 0 the first text is
    in focus and the last one is not. *)
Lemma update_normalized_range (N index : nat) (radius : num) (p : R) :
  (2 <= N)%nat ->
  let u := update_text N radius (mul (Fin p) (sub (of_nat N) (Fin 1))) index in
  exists n, normalizedAngle u = Fin n /\ 0 <= n < PI * 2 /\
    (isFocus u = true <-> n < 3 / 10 \/ n > PI * 2 - 3 / 10).
Proof.
  intros HN u.
  destruct (update_text_angles N index radius p HN) as [_ Hc].
  destruct (update_text_focus N index radius _ _ Hc) as [k [E [B F]]].
  exists (INR index / (INR N - 1) * PI - p * PI - PI * 2 * IZR k).
  split; [exact E|]. split; [exact B|exact F].
Qed.

Lemma update_N4_start_focus (radius : num) :
  isFocus (update_text 4 radius (mul (Fin 0) (sub (of_nat 4) (Fin 1))) 0) = true /\
  isFocus (update_text 4 radius (mul (Fin 0) (sub (of_nat 4) (Fin 1))) 3) = false.
Proof.
  pose proof PI_bounds as HPI.
  assert (H4 : (2 <= 4)%nat) by lia.
  destruct (update_text_angles 4 0 radius 0 H4) as [_ Hc0].
  destruct (update_text_angles 4 3 radius 0 H4) as [_ Hc3].
  destruct (update_text_focus _ _ _ _ _ Hc0) as [k0 [_ [B0 F0]]].
  destruct (update_text_focus _ _ _ _ _ Hc3) as [k3 [_ [B3 F3]]].
  replace (INR 0 / (INR 4 - 1) * PI - 0 * PI) with 0 in B0, F0
    by (simpl; field).
  replace (INR 3 / (INR 4 - 1) * PI - 0 * PI) with PI in B3, F3
    by (simpl; field).
  (* the shift is zero turns in both cases *)
  assert (Hk0 : PI * 2 * IZR k0 = 0).
  { assert (-1 < IZR k0 < 1) by (split; nra).
    assert (k0 = 0%Z) as -> by (destruct H as [Ha Hb];
      apply lt_IZR in Ha; apply lt_IZR in Hb; lia).
    simpl; ring. }
  assert (Hk3 : PI * 2 * IZR k3 = 0).
  { assert (-1 < IZR k3 < 1) by (split; nra).
    assert (k3 = 0%Z) as -> by (destruct H as [Ha Hb];
      apply lt_IZR in Ha; apply lt_IZR in Hb; lia).
    simpl; ring. }
  rewrite Hk0 in F0. rewrite Hk3 in F3.
  split.
  - apply F0. lra.
  - apply not_true_is_false. intros E. apply F3 in E. lra.
Qed.

(** * At most one text in focus for [N = 4] *)

Definition is_add_focus (e : effect) : bool :=
  match e with AddFocus _ => true | _ => false end.

Lemma N4_current_angle (i : nat) (radius : num) (p : R) :
  currentAngle (update_text 4 radius (mul (Fin p) (sub (of_nat 4) (Fin 1))) i)
    = Fin (INR i * PI / 3 - p * PI).
Proof.
  assert (H4 : (2 <= 4)%nat) by lia.
  destruct (update_text_angles 4 i radius p H4) as [_ Hc].
  rewrite Hc. f_equal. simpl. field.
Qed.

(** Whole turns, as multiples of [PI]. *)
Lemma turn_cases (m : Z) :
  PI * IZR m <= - (2 * PI) \/ PI * IZR m = - PI \/ PI * IZR m = 0 \/
  PI * IZR m = PI \/ 2 * PI <= PI * IZR m.
Proof.
  pose proof PI_bounds as HPI.
  destruct (Z_le_gt_dec m (-2)) as [H|H].
  - left. apply IZR_le in H. nra.
  - destruct (Z.eq_dec m (-1)) as [->|H1]; [right; left; simpl; ring|].
    destruct (Z.eq_dec m 0) as [->|H2]; [right; right; left; simpl; ring|].
    destruct (Z.eq_dec m 1) as [->|H3]; [right; right; right; left; simpl; ring|].
    right; right; right; right.
    assert (H5 : (2 <= m)%Z) by lia. apply IZR_le in H5. nra.
Qed.

Lemma N4_focus_exclusive (i j : nat) (radius : num) (p : R) :
  (i < j < 4)%nat ->
  isFocus (update_text 4 radius (mul (Fin p) (sub (of_nat 4) (Fin 1))) i) = true ->
  isFocus (update_text 4 radius (mul (Fin p) (sub (of_nat 4) (Fin 1))) j) = true ->
  False.
Proof.
  intros Hij Fi Fj.
  pose proof PI_bounds as HPI.
  destruct (update_text_focus _ _ _ _ _ (N4_current_angle i radius p))
    as [ki [_ [Bi Ci]]].
  destruct (update_text_focus _ _ _ _ _ (N4_current_angle j radius p))
    as [kj [_ [Bj Cj]]].
  apply Ci in Fi. apply Cj in Fj. clear Ci Cj.
  assert (Hm : PI * 2 * IZR kj - PI * 2 * IZR ki = 2 * (PI * IZR (kj - ki)))
    by (rewrite minus_IZR; ring).
  destruct i as [|[|[|[|i]]]]; destruct j as [|[|[|[|j]]]]; try lia;
    simpl INR in *;
    destruct (turn_cases (kj - ki)) as [T|[T|[T|[T|T]]]];
    destruct Fi as [Fi|Fi]; destruct Fj as [Fj|Fj]; lra.
Qed.

(** C9: for four texts, on every tick the current angles of adjacent texts
    differ by exactly [PI / 3], and [onUpdate] adds the focus class to at
    most one text (each other text has it removed). *)
Theorem onUpdate_N4_single_focus (radius : num) (p : R) :
  (forall i, (i < 3)%nat -> exists a,
      currentAngle (update_text 4 radius (mul (Fin p) (sub (of_nat 4) (Fin 1))) i)
        = Fin a /\
      currentAngle (update_text 4 radius (mul (Fin p) (sub (of_nat 4) (Fin 1))) (S i))
        = Fin (a + PI / 3)) /\
  (List.length (filter is_add_focus (onUpdate 4 radius (Fin p))) <= 1)%nat.
Proof.
  split.
  - intros i _. exists (INR i * PI / 3 - p * PI).
    split; [apply N4_current_angle|].
    rewrite N4_current_angle. f_equal. rewrite S_INR. field.
  - unfold onUpdate. cbv zeta. cbn [seq flat_map app].
    pose proof (N4_focus_exclusive 0 1 radius p ltac:(lia)) as X01.
    pose proof (N4_focus_exclusive 0 2 radius p ltac:(lia)) as X02.
    pose proof (N4_focus_exclusive 0 3 radius p ltac:(lia)) as X03.
    pose proof (N4_focus_exclusive 1 2 radius p ltac:(lia)) as X12.
    pose proof (N4_focus_exclusive 1 3 radius p ltac:(lia)) as X13.
    pose proof (N4_focus_exclusive 2 3 radius p ltac:(lia)) as X23.
    destruct (isFocus (update_text 4 radius _ 0)) eqn:F0;
    destruct (isFocus (update_text 4 radius _ 1)) eqn:F1;
    destruct (isFocus (update_text 4 radius _ 2)) eqn:F2;
    destruct (isFocus (update_text 4 radius _ 3)) eqn:F3;
    simpl; try lia; exfalso; eauto.
Qed.

(** * Radius used by the ticks after resizes *)

(** Effects a delivered event appends once the trigger [t] is installed. *)
Definition tick_effects (t : trigger) (ev : event) : list effect :=
  match ev with
  | Tick progress => onUpdate (t_totalTexts t) (t_radius t) (Fin progress)
  | Resize _ => []
  end.

Lemma run_log (evs : list event) (pg : page) (t : trigger) :
  p_trigger pg = Some t ->
  p_log (run pg evs) = p_log pg ++ flat_map (tick_effects t) evs.
Proof.
  revert pg. induction evs as [|ev evs IH]; intros pg Ht.
  - simpl. rewrite app_nil_r. reflexivity.
  - unfold run. simpl fold_left. fold (run (step pg ev) evs).
    destruct ev as [w|progress]; simpl step.
    + rewrite IH by exact Ht. reflexivity.
    + rewrite Ht. rewrite IH by reflexivity.
      cbn [p_log flat_map tick_effects]. rewrite app_assoc. reflexivity.
Qed.

Lemma initPointAnimation_installed (e : env) :
  gsap_defined e = true -> scrolltrigger_defined e = true ->
  (1 <= point_text_count e)%nat ->
  snd (initPointAnimation e) =
    Some (mkTrigger (Nat.min (point_text_count e) 4)
                    (Fin (IZR (getPointRadius (innerWidth e))))).
Proof.
  intros Hg Hs Hc. unfold initPointAnimation. rewrite Hg, Hs. simpl negb.
  cbv iota.
  destruct (Nat.eqb_spec (Nat.min (point_text_count e) 4) 0) as [H0|_];
    [lia|reflexivity].
Qed.

Lemma pz_update (N index : nat) (radius rp : num) :
  pz (u_pose (update_text N radius rp index)) =
  mul (cos (currentAngle (update_text N radius rp index))) radius.
Proof. reflexivity. Qed.

(** C1 (counterexample): set up at width 400 (radius 70), resize to 1300
    (radius 120), then a tick at progress 0: the effects of the tick are
    not those of [onUpdate] with the radius of the current width; the
    depth written for the first text is 70, not 120. *)
Lemma resize_tick_keeps_setup_radius :
  let pg := run (setup (mkEnv true true 4 400)) [Resize 1300] in
  p_width pg = 1300%Z /\
  p_log (step pg (Tick 0)) <>
    p_log pg ++ onUpdate 4 (Fin (IZR (getPointRadius (p_width pg)))) (Fin 0).
Proof.
  intros pg.
  assert (Ht : p_trigger pg = Some (mkTrigger 4 (Fin 70))) by reflexivity.
  assert (Hw : p_width pg = 1300%Z) by reflexivity.
  split; [exact Hw|].
  unfold step. rewrite Ht. cbn [p_log t_totalTexts t_radius]. rewrite Hw.
  change (getPointRadius 1300) with 120%Z.
  intros H. apply app_inv_head in H.
  unfold onUpdate in H. cbv zeta in H. cbn [seq flat_map app] in H.
  apply (f_equal (fun l => match l with
                           | SetPose _ q :: _ => pz q
                           | _ => NaN
                           end)) in H.
  cbv beta iota in H. rewrite !pz_update, !N4_current_angle in H.
  replace (INR 0 * PI / 3 - 0 * PI) with 0 in H by (simpl; field).
  cbn [cos mul] in H. rewrite cos_0 in H. injection H as H. lra.
Qed.

(** C1 (amended): the radius is computed once, from the width at setup;
    resizes do not change it.  After a setup that installs the trigger,
    the effects written by any sequence of resizes and ticks are the
    setup's effects followed, for each tick in order, by
    [onUpdate N r progress], with [N] the number of texts (at most 4) and
    [r] the radius of the setup width: each tick's poses depend only on the
    index, [N], that radius and the tick's progress. *)
Theorem ticks_use_setup_radius (e : env) (evs : list event) :
  gsap_defined e = true -> scrolltrigger_defined e = true ->
  (1 <= point_text_count e)%nat ->
  p_log (run (setup e) evs) =
    fst (initPointAnimation e) ++
    flat_map (tick_effects (mkTrigger (Nat.min (point_text_count e) 4)
                              (Fin (IZR (getPointRadius (innerWidth e)))))) evs.
Proof.
  intros Hg Hs Hc.
  pose proof (initPointAnimation_installed e Hg Hs Hc) as Hi.
  unfold setup. destruct (initPointAnimation e) as [eff t] eqn:E.
  simpl in Hi |- *.
  apply run_log. exact Hi.
Qed.

Lemma ticks_use_setup_radius_witness :
  (gsap_defined (mkEnv true true 4 400) = true /\
   scrolltrigger_defined (mkEnv true true 4 400) = true /\
   (1 <= point_text_count (mkEnv true true 4 400))%nat) /\
  p_log (run (setup (mkEnv true true 4 400)) [Resize 1300; Tick 0]) =
    fst (initPointAnimation (mkEnv true true 4 400)) ++
    flat_map (tick_effects (mkTrigger 4 (Fin (IZR (getPointRadius 400)))))
             [Resize 1300; Tick 0].
Proof.
  split; [split; [reflexivity|split; [reflexivity|simpl; lia]]|].
  apply (ticks_use_setup_radius (mkEnv true true 4 400) [Resize 1300; Tick 0]);
    [reflexivity|reflexivity|simpl; lia].
Defined.

(** * Throttle *)

Lemma throttle_run_in (delay lastCall : Z) (calls : list Z) (t : Z) :
  In t (throttle_run delay lastCall calls) -> In t calls.
Proof.
  revert lastCall. induction calls as [|c rest IH]; intros lastCall H; [exact H|].
  simpl in H. destruct (Z.leb_spec delay (c - lastCall)).
  - destruct H as [->|H]; [left; reflexivity|right; eapply IH; exact H].
  - right. eapply IH. exact H.
Qed.

Lemma throttle_run_spaced (delay lastCall : Z) (calls : list Z) :
  HdRel (fun a b => (a + delay <= b)%Z) lastCall (throttle_run delay lastCall calls) /\
  Sorted (fun a b => (a + delay <= b)%Z) (throttle_run delay lastCall calls).
Proof.
  revert lastCall. induction calls as [|c rest IH]; intros lastCall.
  - split; constructor.
  - simpl. destruct (Z.leb_spec delay (c - lastCall)).
    + destruct (IH c) as [Hd Hs]. split.
      * constructor. lia.
      * constructor; assumption.
    + exact (IH lastCall).
Qed.

(** X1: the calls that [throttle(func, delay)] lets through are spaced at
    least [delay] ms apart, and the first one is at least [delay] ms after
    time 0 (the initial [lastCall]). *)
Theorem throttle_spacing (delay : Z) (calls : list Z) :
  HdRel (fun a b => (a + delay <= b)%Z) 0%Z (throttle delay calls) /\
  Sorted (fun a b => (a + delay <= b)%Z) (throttle delay calls).
Proof. apply throttle_run_spaced. Qed.

(** X2: a burst of calls all falling in a window shorter than [delay]
    (e.g. resize events within 200 ms for [handleResize]) runs [func] at
    most once. *)
Theorem throttle_burst_at_most_once (delay t0 : Z) (calls : list Z) :
  (forall t, In t calls -> (t0 <= t < t0 + delay)%Z) ->
  (List.length (throttle delay calls) <= 1)%nat.
Proof.
  intros Hw.
  destruct (throttle_run_spaced delay 0 calls) as [_ Hs].
  unfold throttle.
  pose proof (throttle_run_in delay 0 calls) as Hin.
  destruct (throttle_run delay 0 calls) as [|a [|b rest]] eqn:E; simpl; try lia.
  exfalso.
  apply Sorted_inv in Hs. destruct Hs as [_ Hh]. inversion Hh; subst.
  assert (Ha : In a calls) by (apply Hin; left; reflexivity).
  assert (Hb : In b calls) by (apply Hin; right; left; reflexivity).
  apply Hw in Ha. apply Hw in Hb. lia.
Qed.

Lemma throttle_burst_at_most_once_witness :
  (forall t, In t [1000; 1050; 1199]%Z -> (1000 <= t < 1000 + 200)%Z) /\
  (List.length (throttle 200 [1000; 1050; 1199]%Z) <= 1)%nat.
Proof.
  assert (H : forall t, In t [1000; 1050; 1199]%Z -> (1000 <= t < 1000 + 200)%Z).
  { intros t [<-|[<-|[<-|[]]]]; lia. }
  split; [exact H|].
  apply (throttle_burst_at_most_once 200 1000 [1000; 1050; 1199]%Z). exact H.
Defined.

(** X3: [isMobile()] holds exactly at the widths where the point radius is
    one of the two small values (70 or 75). *)
Theorem isMobile_small_radius (w : Z) :
  isMobile w = true <-> (getPointRadius w <= 75)%Z.
Proof.
  unfold isMobile. rewrite Z.leb_le.
  destruct (getPointRadius_cases w) as [[? E]|[[? E]|[[? E]|[? E]]]];
    rewrite E; lia.
Qed.

(** * Consultation modal *)

Lemma trim_start_nil (s : jsstring) :
  trim_start s = [] <-> forall c, In c s -> is_js_space c = true.
Proof.
  induction s as [|c rest IH]; simpl.
  - split; [intros _ c []|reflexivity].
  - destruct (is_js_space c) eqn:Ec.
    + rewrite IH. split.
      * intros H c' [<-|Hin]; [exact Ec|apply H; exact Hin].
      * intros H c' Hin. apply H. right. exact Hin.
    + split; [discriminate|].
      intros H. rewrite H in Ec; [discriminate|left; reflexivity].
Qed.

(** [!s.trim()] holds exactly for strings made only of whitespace and
    line terminators. *)
Lemma trim_falsy (s : jsstring) :
  js_falsy (trim s) = true <-> forall c, In c s -> is_js_space c = true.
Proof.
  rewrite <- trim_start_nil. unfold trim.
  destruct (trim_start s) as [|c r] eqn:E.
  - simpl. split; reflexivity.
  - split; [|discriminate]. intros H. exfalso.
    assert (Hc : is_js_space c = false).
    { clear H. revert E. induction s as [|x s' IHs]; simpl; [discriminate|].
      destruct (is_js_space x) eqn:Ex; [exact IHs|].
      intros E; injection E as -> _; exact Ex. }
    destruct (trim_start (rev (c :: r))) eqn:E2.
    + simpl in E2.
      assert (Hin : In c (rev r ++ [c])) by (apply in_or_app; right; left; reflexivity).
      rewrite trim_start_nil in E2. rewrite (E2 c Hin) in Hc. discriminate.
    + destruct (rev (z :: j)) eqn:E3; [|discriminate].
      apply (f_equal (@List.length Z)) in E3. simpl in E3.
      rewrite length_app in E3. simpl in E3. lia.
Qed.

Definition consent_ok (f : form) : Prop :=
  agreeAll f = agreeTwo f && agreeThird f.

Lemma modal_step_consent (p : mpage) (ev : mevent) :
  consent_ok (m_form p) -> consent_ok (m_form (fst (modal_step p ev))).
Proof.
  unfold consent_ok. intros H.
  destruct ev; simpl; try exact H; try reflexivity.
  - destruct (modal_active p); [reflexivity|exact H].
  - unfold submitClick.
    destruct (js_falsy _); [exact H|].
    destruct (js_falsy (trim _)); [exact H|].
    destruct (js_falsy (trim _)); [exact H|].
    destruct (negb _ || negb _); [exact H|reflexivity].
  - destruct (negb (agreeAll (m_form p))); reflexivity.
Qed.

(** X4: the "agree to all" box stays equal to the conjunction of the two
    required consent boxes across any sequence of user events on the
    modal (toggles, typing, open, close, Escape, submit). *)
Theorem consent_invariant (p : mpage) (evs : list mevent) :
  consent_ok (m_form p) -> consent_ok (m_form (fst (modal_run p evs))).
Proof.
  revert p. induction evs as [|ev rest IH]; intros p H; [exact H|].
  simpl. destruct (modal_step p ev) as [p1 o1] eqn:E1.
  destruct (modal_run p1 rest) as [p2 o2] eqn:E2. simpl.
  assert (H1 : consent_ok (m_form p1)).
  { replace p1 with (fst (modal_step p ev)) by (rewrite E1; reflexivity).
    apply modal_step_consent. exact H. }
  specialize (IH p1 H1). rewrite E2 in IH. exact IH.
Qed.

Definition blank_modal : mpage :=
  mkMPage false "" (mkForm [] [] [] false false false).

Lemma consent_invariant_witness :
  consent_ok (m_form blank_modal) /\
  consent_ok (m_form (fst (modal_run blank_modal
                             [OpenModal; ToggleTwo; ToggleAll; ToggleThird]))).
Proof.
  assert (H : consent_ok (m_form blank_modal)) by reflexivity.
  split; [exact H|]. apply consent_invariant. exact H.
Defined.

(** X5: a submit click is accepted exactly when a consultation type is
    selected, the name and the phone each contain a character other than
    whitespace, and both required consents are checked; then it logs the
    untrimmed values, shows the completion alert and closes and clears the
    modal.  Otherwise the page, including what was typed, is left unchanged
    and a single alert that is not the completion message is shown. *)
Theorem submitClick_spec (p : mpage) :
  let f := m_form p in
  let ok := consultType f <> [] /\
            (exists c, In c (inputName f) /\ is_js_space c = false) /\
            (exists c, In c (inputPhone f) /\ is_js_space c = false) /\
            agreeTwo f = true /\ agreeThird f = true in
  (ok -> submitClick p =
           (closeConsultationModal p,
            [LogConsult (consultType f) (inputName f) (inputPhone f);
             Alert "상담 신청이 완료되었습니다."])) /\
  (~ ok -> fst (submitClick p) = p /\
           exists msg, snd (submitClick p) = [Alert msg] /\
                       msg <> "상담 신청이 완료되었습니다."%string).
Proof.
  intros f ok.
  assert (Hblank : forall s, js_falsy (trim s) = false <->
                     exists c, In c s /\ is_js_space c = false).
  { intros s. split.
    - intros H.
      destruct (existsb (fun c => negb (is_js_space c)) s) eqn:Ex.
      + apply existsb_exists in Ex. destruct Ex as [c [Hin Hc]].
        exists c. split; [exact Hin|]. apply negb_true_iff. exact Hc.
      + exfalso. assert (js_falsy (trim s) = true); [|congruence].
        apply trim_falsy. intros c Hin.
        destruct (is_js_space c) eqn:Ec; [reflexivity|].
        exfalso. assert (existsb (fun c => negb (is_js_space c)) s = true)
          by (apply existsb_exists; exists c; rewrite Ec; split; auto).
        congruence.
    - intros [c [Hin Hc]].
      destruct (js_falsy (trim s)) eqn:E; [|reflexivity].
      pose proof (proj1 (trim_falsy s) E c Hin) as E'.
      rewrite E' in Hc. discriminate. }
  unfold submitClick. fold f.
  split.
  - intros [Hct [Hn [Hph [H2 H3]]]].
    destruct (consultType f) eqn:Ect; [contradiction|]. simpl js_falsy.
    apply Hblank in Hn. apply Hblank in Hph. rewrite Hn, Hph, H2, H3.
    reflexivity.
  - intros Hnok.
    destruct (js_falsy (consultType f)) eqn:E1.
    { split; [reflexivity|]. eexists; split; [reflexivity|discriminate]. }
    destruct (js_falsy (trim (inputName f))) eqn:E2.
    { split; [reflexivity|]. eexists; split; [reflexivity|discriminate]. }
    destruct (js_falsy (trim (inputPhone f))) eqn:E3.
    { split; [reflexivity|]. eexists; split; [reflexivity|discriminate]. }
    destruct (negb (agreeTwo f) || negb (agreeThird f)) eqn:E4.
    { split; [reflexivity|]. eexists; split; [reflexivity|discriminate]. }
    exfalso. apply Hnok.
    apply orb_false_iff in E4. destruct E4 as [E4 E5].
    apply negb_false_iff in E4. apply negb_false_iff in E5.
    split; [destruct (consultType f); [discriminate|discriminate]|].
    split; [apply Hblank; exact E2|].
    split; [apply Hblank; exact E3|].
    split; assumption.
Qed.

(** X6: closing the modal with the close button or the background, or with
    Escape while it is open, deactivates it, restores the body's scrolling,
    and clears the form so that an immediate submit is rejected with the
    "select a consultation type" alert. *)
Theorem modal_close_resets (p : mpage) (ev : mevent) :
  ev = CloseClick \/ (ev = EscapeKey /\ modal_active p = true) ->
  let q := fst (modal_step p ev) in
  modal_active q = false /\ body_overflow q = ""%string /\
  submitClick q = (q, [Alert "상담신청 항목을 선택해주세요."]).
Proof.
  intros [->|[-> Ha]]; simpl; [|rewrite Ha]; repeat split; reflexivity.
Qed.

Lemma modal_close_resets_witness :
  (EscapeKey = CloseClick \/
   (EscapeKey = EscapeKey /\ modal_active (openConsultationModal blank_modal) = true)) /\
  modal_active (fst (modal_step (openConsultationModal blank_modal) EscapeKey)) = false.
Proof.
  assert (H : EscapeKey = CloseClick \/
   (EscapeKey = EscapeKey /\ modal_active (openConsultationModal blank_modal) = true))
    by (right; split; reflexivity).
  split; [exact H|].
  apply (modal_close_resets (openConsultationModal blank_modal) EscapeKey H).
Defined.

(** * Hamburger menu *)




(** * Background retries *)

(** X8: a retry on a [.point_box] without [bg-loaded] marks it loaded
    exactly when the page is not opened from [file:] and the chosen image
    (WebP when supported, else JPG) or, after a WebP failure, the JPG
    fallback loads; once marked, any later sequence of [load] and
    [visibilitychange] retries issues no fetch at all. *)
Theorem retry_marks_loaded (protocol : string) (w : bool) (ok : string -> bool) :
  (snd (retryPreload (Some false) protocol w ok) = Some true <->
   protocol <> "file:"%string /\
   (ok (if w then webpPath else jpgPath) = true \/ (w = true /\ ok jpgPath = true))) /\
  (forall rs, fst (retry_run (Some true) rs) = []).
Proof.
  split.
  - unfold retryPreload, aggressivePreloadImages, loadFallbackImage.
    destruct (String.eqb_spec protocol "file:") as [Hf|Hf].
    + simpl. split; [discriminate|intros [H _]; contradiction].
    + destruct w; simpl;
        destruct (ok webpPath); destruct (ok jpgPath); simpl;
        split; intros H; try discriminate; try reflexivity;
        try (split; [exact Hf|]);
        try (left; reflexivity); try (right; split; reflexivity);
        try (destruct H as [_ [H|[_ H]]]; discriminate).
  - induction rs as [|[[protocol' w'] ok'] rest IH]; [reflexivity|].
    simpl. destruct (retry_run (Some true) rest) as [a2 h2]. simpl in IH |- *.
    exact IH.
Qed.

(** * Start-up *)

Lemma first_check_spec (avail : nat -> bool) (fuel s k : nat) :
  first_check avail s fuel = Some k <->
  (s <= k < s + fuel)%nat /\ avail k = true /\
  (forall j, (s <= j < k)%nat -> avail j = false).
Proof.
  revert s. induction fuel as [|fuel IH]; intros s; simpl.
  - split; [discriminate|lia].
  - destruct (avail s) eqn:Es.
    + split.
      * intros H; injection H as <-. split; [lia|]. split; [exact Es|].
        intros j Hj; lia.
      * intros [Hk [Ha Hb]].
        destruct (Nat.eq_dec s k) as [->|Hne]; [reflexivity|].
        exfalso. rewrite (Hb s ltac:(lia)) in Es. discriminate.
    + rewrite IH. split.
      * intros [Hk [Ha Hb]]. split; [lia|]. split; [exact Ha|].
        intros j Hj. destruct (Nat.eq_dec j s) as [->|Hne]; [exact Es|].
        apply Hb. lia.
      * intros [Hk [Ha Hb]].
        assert (k <> s) by (intros ->; congruence).
        split; [lia|]. split; [exact Ha|]. intros j Hj. apply Hb. lia.
Qed.

(** X9: [waitForLibraries] resolves at check [k] (100·k ms after the first
    check) exactly when [gsap], [AOS] and [ScrollTrigger] are all defined
    at check [k] and at no earlier check. *)
Theorem waitForLibraries_first_check (avail : nat -> bool) (fuel k : nat) :
  waitForLibraries avail fuel = Some k <->
  (k < fuel)%nat /\ avail k = true /\ (forall j, (j < k)%nat -> avail j = false).
Proof.
  unfold waitForLibraries. rewrite first_check_spec.
  split; intros [H1 [H2 H3]]; (split; [lia|split; [exact H2|]]);
    intros j Hj; apply H3; lia.
Qed.

(** X10: if the three libraries never become available, the start-up
    handler never gets past [await initializeGSAP()]: however long one
    waits, no preload, header, modal, AOS, animation or resize setup
    happens, and no error is reported (the polling has no timeout). *)
Theorem startup_waits_for_libraries (avail : nat -> bool) (fuel : nat)
  (protocol : string) (w : bool) (ok : string -> bool) :
  (forall k, avail k = false) ->
  domContentLoaded avail fuel protocol w ok = [].
Proof.
  intros Hn. unfold domContentLoaded.
  destruct (waitForLibraries avail fuel) as [k|] eqn:E; [|reflexivity].
  apply waitForLibraries_first_check in E. destruct E as [_ [Ha _]].
  rewrite Hn in Ha. discriminate.
Qed.

Lemma startup_waits_for_libraries_witness :
  (forall k : nat, (fun _ : nat => false) k = false) /\
  domContentLoaded (fun _ => false) 50 "https:" true (fun _ => true) = [].
Proof.
  split; [intros; reflexivity|].
  apply (startup_waits_for_libraries (fun _ => false) 50 "https:" true (fun _ => true)).
  intros; reflexivity.
Defined.

(** X11: once the libraries are loaded, if WebP is supported and the WebP
    background fails to load (outside [file:]), the start-up handler stays
    suspended on the never-settled preload promise: the hamburger menu, the
    consultation modal, AOS, the animations and the resize listener are
    never set up, whatever the JPG fallback does.  When WebP is unsupported
    or its load succeeds, they are all set up. *)
Theorem startup_blocked_by_webp_failure (avail : nat -> bool) (fuel k : nat)
  (protocol : string) (ok : string -> bool) :
  waitForLibraries avail fuel = Some k ->
  protocol <> "file:"%string ->
  (ok webpPath = false ->
   domContentLoaded avail fuel protocol true ok = [StartPreload]) /\
  (forall w', (w' = false \/ ok webpPath = true) ->
   domContentLoaded avail fuel protocol w' ok =
     [StartPreload; ObservePoint; InitHeaderStep; InitModalStep; InitAOS;
      ScheduleAnimations; AddResizeListener]).
Proof.
  intros Hw Hp. unfold domContentLoaded. rewrite Hw.
  unfold aggressivePreloadImages.
  destruct (String.eqb_spec protocol "file:") as [Hf|_]; [contradiction|].
  split.
  - intros Hf. simpl. rewrite Hf. reflexivity.
  - intros w' [->|Hok].
    + simpl. destruct (ok jpgPath); reflexivity.
    + destruct w'; simpl; [rewrite Hok; reflexivity|].
      destruct (ok jpgPath); reflexivity.
Qed.

Lemma startup_blocked_by_webp_failure_witness :
  (waitForLibraries (fun k => Nat.leb 3 k) 10 = Some 3%nat /\
   "https:"%string <> "file:"%string) /\
  domContentLoaded (fun k => Nat.leb 3 k) 10 "https:" true (fun _ => false)
    = [StartPreload].
Proof.
  assert (H1 : waitForLibraries (fun k => Nat.leb 3 k) 10 = Some 3%nat)
    by reflexivity.
  assert (H2 : "https:"%string <> "file:"%string) by discriminate.
  split; [split; assumption|].
  apply (startup_blocked_by_webp_failure (fun k => Nat.leb 3 k) 10 3 "https:"
           (fun _ => false) H1 H2).
  reflexivity.
Defined.

(** * Autoplay fallback *)

Definition interaction_layout (hs : list nat) : list listener :=
  flat_map (fun h => map (fun e => (e, h)) interaction_events) hs.

Lemma interaction_layout_existsb (h : nat) (hs : list nat) (e : string) :
  ~ In h hs -> existsb (listener_eqb (e, h)) (interaction_layout hs) = false.
Proof.
  induction hs as [|h' hs IH]; intros Hn; [reflexivity|].
  assert (Hne : h <> h') by (intros ->; apply Hn; left; reflexivity).
  assert (Hr : ~ In h hs) by (intros Hi; apply Hn; right; exact Hi).
  unfold interaction_layout in *. simpl.
  unfold listener_eqb; simpl.
  rewrite (proj2 (Nat.eqb_neq h h') Hne), !Bool.andb_false_r. simpl.
  apply IH. exact Hr.
Qed.

Lemma interaction_layout_remove (h : nat) (hs : list nat) (e : string) :
  ~ In h hs -> removeEventListener (interaction_layout hs) (e, h) = interaction_layout hs.
Proof.
  induction hs as [|h' hs IH]; intros Hn; [reflexivity|].
  assert (Hne : h' <> h) by (intros ->; apply Hn; left; reflexivity).
  assert (Hr : ~ In h hs) by (intros Hi; apply Hn; right; exact Hi).
  unfold interaction_layout, removeEventListener in *. simpl.
  unfold listener_eqb; simpl.
  rewrite (proj2 (Nat.eqb_neq h' h) Hne), !Bool.andb_false_r. simpl.
  f_equal. f_equal. f_equal. apply IH. exact Hr.
Qed.

Lemma interaction_layout_app (hs1 hs2 : list nat) :
  interaction_layout (hs1 ++ hs2) = interaction_layout hs1 ++ interaction_layout hs2.
Proof. unfold interaction_layout. apply flat_map_app. Qed.

Lemma failed_autoplays_layout (pre hs : list nat) :
  NoDup (pre ++ hs) ->
  failed_autoplays hs (interaction_layout pre) = interaction_layout (pre ++ hs).
Proof.
  revert pre. induction hs as [|h hs IH]; intros pre Hd.
  - rewrite app_nil_r. reflexivity.
  - unfold failed_autoplays. simpl.
    assert (Hn : ~ In h pre).
    { intros Hi. apply NoDup_remove_2 in Hd. apply Hd, in_or_app. left; exact Hi. }
    assert (Hadd : add_interaction_listeners (interaction_layout pre) h
                   = interaction_layout (pre ++ [h])).
    { unfold add_interaction_listeners, addEventListener. simpl.
      rewrite interaction_layout_existsb by exact Hn.
      rewrite existsb_app, interaction_layout_existsb by exact Hn. simpl.
      rewrite <- app_assoc. simpl.
      rewrite existsb_app, interaction_layout_existsb by exact Hn. simpl.
      rewrite interaction_layout_app, <- app_assoc. reflexivity. }
    rewrite Hadd. fold (failed_autoplays hs (interaction_layout (pre ++ [h]))).
    rewrite IH; [rewrite <- app_assoc; reflexivity|].
    rewrite <- app_assoc. exact Hd.
Qed.

Lemma removeEventListener_app (a b : list listener) (l : listener) :
  removeEventListener (a ++ b) l = removeEventListener a l ++ removeEventListener b l.
Proof. unfold removeEventListener. apply filter_app. Qed.

Lemma userInteractionHandler_app (h : nat) (a : list listener) (hs : list nat) :
  ~ In h hs ->
  userInteractionHandler h (a ++ interaction_layout hs) =
  userInteractionHandler h a ++ interaction_layout hs.
Proof.
  intros Hn. unfold userInteractionHandler. cbn [fold_left interaction_events].
  rewrite !removeEventListener_app, !interaction_layout_remove by exact Hn.
  reflexivity.
Qed.

Lemma dispatch_run_layout (ev : string) (hs : list nat) :
  NoDup hs -> In ev interaction_events ->
  dispatch_run ev hs (interaction_layout hs) = ([], hs).
Proof.
  intros Hd He. induction Hd as [|h hs Hn Hd IH]; [reflexivity|].
  change (interaction_layout (h :: hs))
    with ([("touchstart", h); ("click", h); ("scroll", h)]%string ++ interaction_layout hs).
  cbn [dispatch_run].
  rewrite existsb_app.
  rewrite removeEventListener_app, interaction_layout_remove by exact Hn.
  rewrite userInteractionHandler_app by exact Hn.
  simpl in He.
  destruct He as [<-|[<-|[<-|[]]]];
    unfold userInteractionHandler, removeEventListener, listener_eqb; simpl;
    repeat (rewrite Nat.eqb_refl; simpl);
    fold (removeEventListener (interaction_layout hs));
    rewrite IH; reflexivity.
Qed.

Lemma dispatch_pending_layout (ev : string) (hs : list nat) :
  map snd (filter (fun l => String.eqb (fst l) ev) (interaction_layout hs)) =
  if existsb (String.eqb ev) interaction_events then hs else [].
Proof.
  induction hs as [|h hs IH].
  - destruct (existsb _ _); reflexivity.
  - change (interaction_layout (h :: hs))
      with ([("touchstart", h); ("click", h); ("scroll", h)]%string ++ interaction_layout hs).
    rewrite filter_app, map_app, IH.
    unfold interaction_events. cbn [existsb filter fst map snd].
    destruct (String.eqb_spec "touchstart" ev) as [<-|N1];
    [|destruct (String.eqb_spec "click" ev) as [<-|N2];
      [|destruct (String.eqb_spec "scroll" ev) as [<-|N3]]];
      try reflexivity.
    rewrite (proj2 (String.eqb_neq ev "touchstart") (not_eq_sym N1)),
            (proj2 (String.eqb_neq ev "click") (not_eq_sym N2)),
            (proj2 (String.eqb_neq ev "scroll") (not_eq_sym N3)).
    reflexivity.
Qed.

(** X12: after any number of failed autoplay attempts (each with its own
    handler closure), a single [touchstart], [click] or [scroll] on the
    document retries [play()] once per failed attempt, in order, and leaves
    no interaction listener behind; any other document event runs none of
    them and leaves them all registered. *)
Theorem autoplay_interaction_cleanup (hs : list nat) :
  NoDup hs ->
  forall ev : string,
    (In ev interaction_events -> dispatch ev (failed_autoplays hs []) = ([], hs)) /\
    (~ In ev interaction_events ->
     dispatch ev (failed_autoplays hs []) = (failed_autoplays hs [], [])).
Proof.
  intros Hd ev.
  assert (Hl : failed_autoplays hs [] = interaction_layout hs)
    by exact (failed_autoplays_layout [] hs Hd).
  rewrite Hl.
  unfold dispatch. rewrite dispatch_pending_layout.
  split; intros He.
  - replace (existsb (String.eqb ev) interaction_events) with true.
    + apply dispatch_run_layout; assumption.
    + symmetry. apply existsb_exists. exists ev. split; [exact He|].
      apply String.eqb_refl.
  - replace (existsb (String.eqb ev) interaction_events) with false; [reflexivity|].
    symmetry. apply not_true_is_false. intros E.
    apply existsb_exists in E. destruct E as [e [Hi Ee]].
    apply String.eqb_eq in Ee. subst e. contradiction.
Qed.

Lemma autoplay_interaction_cleanup_witness :
  NoDup [0%nat; 1%nat] /\
  dispatch "click" (failed_autoplays [0%nat; 1%nat] []) = ([], [0%nat; 1%nat]).
Proof.
  assert (Hd : NoDup [0%nat; 1%nat]).
  { constructor; [simpl; intros [H|[]]; discriminate|].
    constructor; [intros []|constructor]. }
  split; [exact Hd|].
  apply (proj1 (autoplay_interaction_cleanup [0%nat; 1%nat] Hd "click")).
  simpl; right; left; reflexivity.
Defined.
